(** * A two-shift substitution cipher: model of [ExcryptDecrypt.py]

    The Python module defines [encrypt_character], [decrypt_character],
    the two batch passes [encrypt_file] / [decrypt_file] and the two
    checks [verify_roundtrip] / [verify_strict].  This file embeds them
    as Rocq functions and proves what the design document states about
    them.

    Conventions of the embedding:
    - a Python [int] is a [Z]; [%] with the positive divisor 26 is
      [Z.modulo] (both are the floored remainder, in [0..25]);
    - a one-character [str] is its code point, a [Z]; a [str] is the list
      of its characters;
    - a call that can raise returns in the [result] monad below. *)

From Stdlib Require Import ZArith List Bool Lia Ascii Sorted.
From Stdlib Require String.
Import String.StringSyntax.
Delimit Scope string_scope with string.
Import ListNotations.
Local Open Scope Z_scope.

(** ** Results of Python calls *)

Inductive exn : Type :=
| ValueError   (* chr() argument outside the code-point range *)
| IndexError.  (* sequence index outside the sequence *)

Inductive result (A : Type) : Type :=
| Ok (a : A)
| Raise (e : exn).

Arguments Ok {A} a.
Arguments Raise {A} e.

Definition bind {A B : Type} (r : result A) (k : A -> result B) : result B :=
  match r with
  | Ok a => k a
  | Raise e => Raise e
  end.

Notation "x <- r ;; k" := (bind r (fun x => k))
  (at level 61, r at next level, right associativity).

(** ** Characters and texts *)

Definition char : Type := Z.
Definition text : Type := list char.

(** [ord] of a one-character string, and [chr], which raises
    [ValueError] outside [range(0x110000)]. *)
Definition ord (c : char) : Z := c.

Definition chr (n : Z) : result char :=
  if (0 <=? n) && (n <=? 1114111) then Ok n else Raise ValueError.

(** A character literal of the source, ['a'] being [lit "a"]. *)
Definition lit (a : ascii) : char := Z.of_N (N_of_ascii a).
Arguments lit a%_char.

(** A string literal: the list of its characters. *)
Definition str (s : String.string) : text :=
  map lit (String.list_ascii_of_string s).
Arguments str s%_string.

(** [<=] and [==] on one-character strings compare code points. *)
Definition str_le (a b : char) : bool := ord a <=? ord b.
Definition str_eq (a b : char) : bool := ord a =? ord b.

(** [range(n)] *)
Definition range (n : nat) : list Z := map Z.of_nat (seq 0 n).

(** ** The forward transform (lines 3-23) *)

Definition encrypt_character (ch : char) (shift1 shift2 : Z) : result char :=
  (* Lowercase rules *)
  if str_le (lit "a") ch && str_le ch (lit "z") then
    if str_le ch (lit "m") then          (* a-m: forward by shift1 * shift2 *)
      let shift := (shift1 * shift2) mod 26 in
      chr (((ord ch - ord (lit "a") + shift) mod 26) + ord (lit "a"))
    else                                 (* n-z: backward by shift1 + shift2 *)
      let shift := (shift1 + shift2) mod 26 in
      chr (((ord ch - ord (lit "a") - shift) mod 26) + ord (lit "a"))
  (* Uppercase rules *)
  else if str_le (lit "A") ch && str_le ch (lit "Z") then
    if str_le ch (lit "M") then          (* A-M: backward by shift1 *)
      let shift := shift1 mod 26 in
      chr (((ord ch - ord (lit "A") - shift) mod 26) + ord (lit "A"))
    else                                 (* N-Z: forward by (shift2)^2 *)
      let shift := (shift2 * shift2) mod 26 in
      chr (((ord ch - ord (lit "A") + shift) mod 26) + ord (lit "A"))
  (* Other chars unchanged *)
  else Ok ch.

(** ** The recovery transform (lines 26-48) *)

(** A [for] loop whose body may [return]: the body yields [Some v] to
    return [v] from the enclosing function and [None] to go on with the
    next element; the loop yields [None] when it runs to its end. *)
Fixpoint for_return {A R : Type} (xs : list A) (body : A -> result (option R))
  : result (option R) :=
  match xs with
  | [] => Ok None
  | x :: xs' =>
      r <- body x ;;
      match r with
      | Some v => Ok (Some v)
      | None => for_return xs' body
      end
  end.

(** The candidate loop of lines 35-38 and 42-45; the two loops differ in
    the first letter [base] of the alphabet only. *)
Definition scan (base ch : char) (shift1 shift2 : Z) : result (option char) :=
  for_return (range 26) (fun i =>
    cand <- chr (ord base + i) ;;
    e <- encrypt_character cand shift1 shift2 ;;
    if str_eq e ch then Ok (Some cand) else Ok None).

Definition decrypt_character (ch : char) (shift1 shift2 : Z) : result char :=
  if str_le (lit "a") ch && str_le ch (lit "z") then
    found <- scan (lit "a") ch shift1 shift2 ;;
    match found with
    | Some cand => Ok cand
    | None => Ok ch                      (* shouldn't happen *)
    end
  else if str_le (lit "A") ch && str_le ch (lit "Z") then
    found <- scan (lit "A") ch shift1 shift2 ;;
    match found with
    | Some cand => Ok cand
    | None => Ok ch                      (* shouldn't happen *)
    end
  else Ok ch.                            (* non-letters unchanged *)

(** ** Batch passes and checks (lines 51-98)

    The files are read whole and written whole; the functions below take
    the text read and return the text that is written and returned. *)

(** ["".join(f(ch) for ch in text)] *)
Fixpoint join_map (f : char -> result char) (t : text) : result text :=
  match t with
  | [] => Ok []
  | ch :: t' =>
      c <- f ch ;;
      rest <- join_map f t' ;;
      Ok (c :: rest)
  end.

Definition encrypt_file (text_in : text) (shift1 shift2 : Z) : result text :=
  join_map (fun ch => encrypt_character ch shift1 shift2) text_in.

Definition decrypt_file (cipher : text) (shift1 shift2 : Z) : result text :=
  join_map (fun ch => decrypt_character ch shift1 shift2) cipher.

(** [==] on strings *)
Fixpoint text_eq (s t : text) : bool :=
  match s, t with
  | [], [] => true
  | a :: s', b :: t' => str_eq a b && text_eq s' t'
  | _, _ => false
  end.

Definition verify_roundtrip (cipher : text) (shift1 shift2 : Z) : result bool :=
  dec <- join_map (fun ch => decrypt_character ch shift1 shift2) cipher ;;
  reenc <- join_map (fun ch => encrypt_character ch shift1 shift2) dec ;;
  Ok (text_eq reenc cipher).

(** The records of [verify_strict]: [(i, original[i], decrypted[i])] and
    [("length", len(original), len(decrypted))]. *)
Inductive mismatch : Type :=
| CharMismatch (i : nat) (o d : char)
| LengthMismatch (lo ld : nat).

(** [s[i]] for [0 <= i] *)
Definition index (s : text) (i : nat) : result char :=
  match nth_error s i with
  | Some c => Ok c
  | None => Raise IndexError
  end.

(** The loop of lines 90-94 over the indices [idxs], with the list
    [mismatches] collected so far; [break] leaves the loop. *)
Fixpoint collect (idxs : list nat) (original decrypted : text)
    (report_mismatches : Z) (mismatches : list mismatch)
  : result (list mismatch) :=
  match idxs with
  | [] => Ok mismatches
  | i :: idxs' =>
      o <- index original i ;;
      d <- index decrypted i ;;
      if negb (str_eq o d) then
        let mismatches := mismatches ++ [CharMismatch i o d] in
        if Z.of_nat (length mismatches) >=? report_mismatches
        then Ok mismatches
        else collect idxs' original decrypted report_mismatches mismatches
      else collect idxs' original decrypted report_mismatches mismatches
  end.

Definition verify_strict (original decrypted : text) (report_mismatches : Z)
  : result (bool * list mismatch) :=
  if text_eq original decrypted then Ok (true, [])
  else
    (* collect first few mismatches (index, original_char, decrypted_char) *)
    let n := Nat.min (length original) (length decrypted) in
    mismatches <- collect (seq 0 n) original decrypted report_mismatches [] ;;
    (* if lengths differ, add a length mismatch hint *)
    let mismatches :=
      if (Z.of_nat (length mismatches) <? report_mismatches)
         && negb (Nat.eqb (length original) (length decrypted))
      then mismatches ++ [LengthMismatch (length original) (length decrypted)]
      else mismatches in
    Ok (false, mismatches).

Definition default_report_mismatches : Z := 5.

(** ** The main program (lines 102-129)

    The program reads the two shifts, encrypts [raw_text.txt] into
    [encrypted_text.txt], decrypts that into [decrypted_text.txt], checks
    the round trip on the encrypted file and the strict equality of the
    raw and the decrypted file, and prints what it found.  [main] takes
    the shifts read and the text of [raw_text.txt]; each file is read back
    as it was written. *)

Inductive line : Type :=
| EncryptionComplete
| DecryptionComplete
| RoundTripPassed
| RoundTripFailed                      (* "failed (unexpected)" *)
| StrictPassed
| StrictMismatchDetected
| MismatchLine (m : mismatch)          (* "   Mismatch:", m *)
| CollisionNote.

Record session : Type := {
  encrypted_text : text;               (* encrypted_text.txt *)
  decrypted_text : text;               (* decrypted_text.txt *)
  printed : list line
}.

Definition main (raw_text : text) (shift1 shift2 : Z) : result session :=
  (* Step 1: Encrypt raw -> encrypted *)
  encrypted <- encrypt_file raw_text shift1 shift2 ;;
  let out := [EncryptionComplete] in
  (* Step 2: Decrypt encrypted -> decrypted *)
  decrypted <- decrypt_file encrypted shift1 shift2 ;;
  let out := out ++ [DecryptionComplete] in
  (* Step 3A: Round-trip verification *)
  passed <- verify_roundtrip encrypted shift1 shift2 ;;
  let out := out ++ [if passed then RoundTripPassed else RoundTripFailed] in
  (* Step 3B: Strict verification *)
  strict <- verify_strict raw_text decrypted default_report_mismatches ;;
  let out :=
    if fst strict then out ++ [StrictPassed]
    else out ++ [StrictMismatchDetected] ++ map MismatchLine (snd strict)
             ++ [CollisionNote] in
  Ok {| encrypted_text := encrypted; decrypted_text := decrypted; printed := out |}.

(** The lines that [main] prints for a result of [verify_strict]. *)
Definition strict_lines (strict : bool * list mismatch) : list line :=
  if fst strict then [StrictPassed]
  else [StrictMismatchDetected] ++ map MismatchLine (snd strict) ++ [CollisionNote].

(** A record of [verify_strict] with the roles of the two texts exchanged. *)
Definition swap (m : mismatch) : mismatch :=
  match m with
  | CharMismatch i o d => CharMismatch i d o
  | LengthMismatch lo ld => LengthMismatch ld lo
  end.

(** * The pattern drawing of [PythonApplication2.py]

    [draw_modified_edge] and [draw_polygon_with_pattern] act on a turtle
    through [forward], [right] and [left] only.  A run is modelled by the
    list of these calls in the order they are made, with the exception
    that ended it, if any; the calls themselves are taken to return.

    The arguments are Python numbers.  An int is its value; float
    arithmetic is not evaluated but recorded as the expression that was
    computed. *)

Inductive number : Type :=
| Int (z : Z)                  (* an int *)
| FloatLit (z : Z)             (* the float literal z.0 *)
| TrueDiv (a b : number)       (* a / b, a float *)
| Minus (a b : number).        (* a - b with a float operand, a float *)

Inductive command : Type :=
| Forward (distance : number)
| Right (angle : number)
| Left (angle : number).

Inductive failure : Type :=
| RecursionError
| OverflowError
| ZeroDivisionError.

Definition run : Type := list command * option failure.


(** Sequencing of two statements: the second runs when the first did
    not raise. *)
Definition and_then (a b : run) : run :=
  match a with
  | (ca, Some e) => (ca, Some e)
  | (ca, None) => (ca ++ fst b, snd b)
  end.

Notation "a ;;; b" := (and_then a b) (at level 62, right associativity).




(** A [for _ in range(n)] loop with the same body at every turn. *)
Fixpoint repeat_run (n : nat) (body : run) : run :=
  match n with
  | O => ([], None)
  | S n' => body ;;; repeat_run n' body
  end.








(** * The rule table of the design document

    The document classifies a character into one of four alphabetic
    domains or as unclassified, and shifts its zero-based offset in its
    26-letter alphabet, computed as [((offset +- shift) mod 26 + 26) mod 26]. *)

Inductive domain : Type :=
| LowerFirst    (* a-m *)
| LowerSecond   (* n-z *)
| UpperFirst    (* A-M *)
| UpperSecond   (* N-Z *)
| Unclassified.

Definition is_lower (c : char) : Prop := lit "a" <= c <= lit "z".
Definition is_upper (c : char) : Prop := lit "A" <= c <= lit "Z".
Definition is_letter (c : char) : Prop := is_lower c \/ is_upper c.

Definition classify (c : char) : domain :=
  if (lit "a" <=? c) && (c <=? lit "m") then LowerFirst
  else if (lit "n" <=? c) && (c <=? lit "z") then LowerSecond
  else if (lit "A" <=? c) && (c <=? lit "M") then UpperFirst
  else if (lit "N" <=? c) && (c <=? lit "Z") then UpperSecond
  else Unclassified.

Definition wrap26 (x : Z) : Z := ((x mod 26) + 26) mod 26.

(** The letter [delta] places after [c] in the alphabet that starts at
    [base], wrapping around. *)
Definition shifted (base c : char) (delta : Z) : char :=
  base + wrap26 ((c - base) + delta).

Definition forward (c : char) (shift1 shift2 : Z) : char :=
  match classify c with
  | LowerFirst => shifted (lit "a") c ((shift1 * shift2) mod 26)
  | LowerSecond => shifted (lit "a") c (- ((shift1 + shift2) mod 26))
  | UpperFirst => shifted (lit "A") c (- (shift1 mod 26))
  | UpperSecond => shifted (lit "A") c ((shift2 * shift2) mod 26)
  | Unclassified => c
  end.

(** The first candidate of the alphabet starting at [base] that [forward]
    sends to [ch], scanning offsets [0..25] upwards. *)
Definition candidates (base : char) : list char :=
  map (fun i => base + i) (range 26).

Definition first_match (base ch : char) (shift1 shift2 : Z) : option char :=
  find (fun cand => forward cand shift1 shift2 =? ch) (candidates base).

Definition recover (ch : char) (shift1 shift2 : Z) : char :=
  if (lit "a" <=? ch) && (ch <=? lit "z") then
    match first_match (lit "a") ch shift1 shift2 with
    | Some cand => cand
    | None => ch
    end
  else if (lit "A" <=? ch) && (ch <=? lit "Z") then
    match first_match (lit "A") ch shift1 shift2 with
    | Some cand => cand
    | None => ch
    end
  else ch.

(** The image of the forward transform under given shifts. *)
Definition in_image (s1 s2 : Z) (c : char) : Prop :=
  exists p, encrypt_character p s1 s2 = Ok c.

(** ** The report of the strict check

    What the design document says [verify_strict] reports: the differing
    positions below both lengths, earliest first, cut at the cap, then the
    length record when the cap is not reached and the lengths differ. *)

Fixpoint differences (i : nat) (o d : text) : list mismatch :=
  match o, d with
  | x :: o', y :: d' =>
      if x =? y then differences (S i) o' d'
      else CharMismatch i x y :: differences (S i) o' d'
  | _, _ => []
  end.

Definition expected_report (o d : text) (cap : Z) : list mismatch :=
  let chars := firstn (Z.to_nat cap) (differences 0 o d) in
  chars ++
  (if (Z.of_nat (length chars) <? cap) && negb (Nat.eqb (length o) (length d))
   then [LengthMismatch (length o) (length d)] else []).

(** The order of two records of differing positions. *)
Definition before (m1 m2 : mismatch) : Prop :=
  match m1, m2 with
  | CharMismatch i _ _, CharMismatch j _ _ => (i < j)%nat
  | _, _ => False
  end.

(** * Proofs *)

(** ** Concrete runs *)

Example encrypt_H : encrypt_character (lit "H") 2 3 = Ok (lit "F").
Proof. reflexivity. Qed.

Example encrypt_e : encrypt_character (lit "e") 2 3 = Ok (lit "k").
Proof. reflexivity. Qed.

Example decrypt_a_fallback : decrypt_character (lit "a") 2 3 = Ok (lit "a").
Proof. reflexivity. Qed.

Example roundtrip_a : verify_roundtrip (str "a") 2 3 = Ok false.
Proof. reflexivity. Qed.

Example strict_cap0 :
  verify_strict (str "a") (str "b") 0
  = Ok (false, [CharMismatch 0 (lit "a") (lit "b")]).
Proof. reflexivity. Qed.

(** ** Literals and arithmetic *)

Lemma lit_values :
  lit "a" = 97 /\ lit "m" = 109 /\ lit "n" = 110 /\ lit "z" = 122 /\
  lit "A" = 65 /\ lit "M" = 77 /\ lit "N" = 78 /\ lit "Z" = 90.
Proof. repeat split; reflexivity. Qed.

Ltac lits :=
  change (lit "a") with 97 in *; change (lit "m") with 109 in *;
  change (lit "n") with 110 in *; change (lit "z") with 122 in *;
  change (lit "A") with 65 in *; change (lit "M") with 77 in *;
  change (lit "N") with 78 in *; change (lit "Z") with 90 in *.

Ltac unfold_cmp :=
  unfold is_letter, is_lower, is_upper, str_le, str_eq, ord in *; lits.

Ltac modarith := Z.to_euclidean_division_equations; lia.

Lemma wrap26_mod x : wrap26 x = x mod 26.
Proof. unfold wrap26. modarith. Qed.

(** The formula gives the same offset when [mod] is read as the
    truncated remainder, for which the added 26 is needed. *)
Lemma wrap26_truncated x : Z.rem (Z.rem x 26 + 26) 26 = wrap26 x.
Proof. rewrite wrap26_mod. modarith. Qed.

Lemma wrap26_range x : 0 <= wrap26 x < 26.
Proof. rewrite wrap26_mod. apply Z.mod_pos_bound. lia. Qed.

Lemma chr_ok n : 0 <= n <= 1114111 -> chr n = Ok n.
Proof.
  intros [H0 H1]. unfold chr.
  apply Z.leb_le in H0, H1. now rewrite H0, H1.
Qed.

(** ** [encrypt_character] computes the rule table and never raises *)

Lemma encrypt_character_forward ch s1 s2 :
  encrypt_character ch s1 s2 = Ok (forward ch s1 s2).
Proof.
  unfold encrypt_character, forward, classify, shifted.
  rewrite !wrap26_mod. unfold_cmp.
  repeat match goal with
  | |- context [?a <=? ?b] => destruct (Z.leb_spec a b); cbn [andb negb]
  end; try lia; try reflexivity;
  (rewrite chr_ok; [ apply (f_equal Ok); modarith | modarith ]).
Qed.

(** ** The rule table, case by case *)

Section Forward.
Variables (s1 s2 : Z).

Lemma forward_lower_first c :
  lit "a" <= c <= lit "m" ->
  forward c s1 s2 = lit "a" + (c - lit "a" + (s1 * s2) mod 26) mod 26.
Proof.
  intros H. unfold forward, classify, shifted. rewrite !wrap26_mod. lits.
  destruct (Z.leb_spec 97 c); [|lia].
  destruct (Z.leb_spec c 109); [|lia]. reflexivity.
Qed.

Lemma forward_lower_second c :
  lit "n" <= c <= lit "z" ->
  forward c s1 s2 = lit "a" + (c - lit "a" - (s1 + s2) mod 26) mod 26.
Proof.
  intros H. unfold forward, classify, shifted. rewrite !wrap26_mod. lits.
  destruct (Z.leb_spec 97 c); [|lia].
  destruct (Z.leb_spec c 109); [lia|].
  destruct (Z.leb_spec 110 c); [|lia].
  destruct (Z.leb_spec c 122); [|lia]. cbn [andb].
  now rewrite Z.add_opp_r.
Qed.

Lemma forward_upper_first c :
  lit "A" <= c <= lit "M" ->
  forward c s1 s2 = lit "A" + (c - lit "A" - s1 mod 26) mod 26.
Proof.
  intros H. unfold forward, classify, shifted. rewrite !wrap26_mod. lits.
  destruct (Z.leb_spec 97 c); [lia|].
  destruct (Z.leb_spec 110 c); [lia|].
  destruct (Z.leb_spec 65 c); [|lia].
  destruct (Z.leb_spec c 77); [|lia]. cbn [andb].
  now rewrite Z.add_opp_r.
Qed.

Lemma forward_upper_second c :
  lit "N" <= c <= lit "Z" ->
  forward c s1 s2 = lit "A" + (c - lit "A" + (s2 * s2) mod 26) mod 26.
Proof.
  intros H. unfold forward, classify, shifted. rewrite !wrap26_mod. lits.
  destruct (Z.leb_spec 97 c); [lia|].
  destruct (Z.leb_spec 110 c); [lia|].
  destruct (Z.leb_spec 65 c); [|lia].
  destruct (Z.leb_spec c 77); [lia|].
  destruct (Z.leb_spec 78 c); [|lia].
  destruct (Z.leb_spec c 90); [|lia]. reflexivity.
Qed.

Lemma forward_other c : ~ is_letter c -> forward c s1 s2 = c.
Proof.
  intros H. unfold forward, classify. unfold_cmp.
  repeat match goal with
  | |- context [?a <=? ?b] => destruct (Z.leb_spec a b); cbn [andb]
  end; try reflexivity; lia.
Qed.

(** A character is in exactly one of the five domains. *)
Lemma domain_cases c :
  lit "a" <= c <= lit "m" \/ lit "n" <= c <= lit "z" \/
  lit "A" <= c <= lit "M" \/ lit "N" <= c <= lit "Z" \/ ~ is_letter c.
Proof. unfold_cmp. lia. Qed.

Lemma forward_is_lower c : is_lower c -> is_lower (forward c s1 s2).
Proof.
  intros H. destruct (domain_cases c) as [D|[D|[D|[D|D]]]];
    [ rewrite forward_lower_first by exact D
    | rewrite forward_lower_second by exact D
    | | | ]; unfold_cmp; try lia; modarith.
Qed.

Lemma forward_is_upper c : is_upper c -> is_upper (forward c s1 s2).
Proof.
  intros H. destruct (domain_cases c) as [D|[D|[D|[D|D]]]];
    [ | | rewrite forward_upper_first by exact D
    | rewrite forward_upper_second by exact D | ];
    unfold_cmp; try lia; modarith.
Qed.

(** The case of a letter is that of its image. *)
Lemma forward_lower_inv c : is_lower (forward c s1 s2) -> is_lower c.
Proof.
  intros H. destruct (domain_cases c) as [D|[D|[D|[D|D]]]].
  - unfold_cmp; lia.
  - unfold_cmp; lia.
  - assert (U : is_upper (forward c s1 s2))
      by (apply forward_is_upper; unfold_cmp; lia).
    unfold_cmp; lia.
  - assert (U : is_upper (forward c s1 s2))
      by (apply forward_is_upper; unfold_cmp; lia).
    unfold_cmp; lia.
  - rewrite forward_other in H by exact D. exfalso. apply D. now left.
Qed.

Lemma forward_upper_inv c : is_upper (forward c s1 s2) -> is_upper c.
Proof.
  intros H. destruct (domain_cases c) as [D|[D|[D|[D|D]]]].
  - assert (U : is_lower (forward c s1 s2))
      by (apply forward_is_lower; unfold_cmp; lia).
    unfold_cmp; lia.
  - assert (U : is_lower (forward c s1 s2))
      by (apply forward_is_lower; unfold_cmp; lia).
    unfold_cmp; lia.
  - unfold_cmp; lia.
  - unfold_cmp; lia.
  - rewrite forward_other in H by exact D. exfalso. apply D. now right.
Qed.

Lemma forward_letter_inv c : is_letter (forward c s1 s2) -> is_letter c.
Proof.
  intros [H|H]; [left; now apply forward_lower_inv
                |right; now apply forward_upper_inv].
Qed.
End Forward.

(** Only the residues of the shifts modulo 26 matter. *)
Lemma forward_mod26 c s1 s2 :
  forward c (s1 mod 26) (s2 mod 26) = forward c s1 s2.
Proof.
  unfold forward.
  rewrite <- (Z.mul_mod s1 s2 26), <- (Z.add_mod s1 s2 26),
    <- (Z.mul_mod s2 s2 26), Z.mod_mod by lia.
  reflexivity.
Qed.

(** ** The candidate loop is a first-match search and never raises *)

Lemma for_return_find {A : Type} (g : A -> char) (p : char -> bool)
    (body : A -> result (option char)) (xs : list A) :
  (forall x, In x xs -> body x = Ok (if p (g x) then Some (g x) else None)) ->
  for_return xs body = Ok (find p (map g xs)).
Proof.
  induction xs as [|x xs IH]; intros Hbody; [reflexivity|].
  cbn [for_return map find]. rewrite (Hbody x) by now left.
  cbn [bind]. destruct (p (g x)); [reflexivity|].
  apply IH. intros y Hy. apply Hbody. now right.
Qed.

Lemma in_range n i : In i (range n) <-> 0 <= i < Z.of_nat n.
Proof.
  unfold range. rewrite in_map_iff. split.
  - intros (k & <- & Hk). apply in_seq in Hk. lia.
  - intros H. exists (Z.to_nat i). split; [lia|]. apply in_seq. lia.
Qed.

Lemma candidates_map base :
  candidates base = map (fun i => base + i) (range 26).
Proof. reflexivity. Qed.

Lemma scan_first_match base ch s1 s2 :
  0 <= base <= 1114086 ->
  scan base ch s1 s2 = Ok (first_match base ch s1 s2).
Proof.
  intros Hb. unfold scan, first_match. rewrite candidates_map.
  apply for_return_find. intros i Hi. apply in_range in Hi.
  unfold ord. rewrite chr_ok by lia. cbn [bind].
  rewrite encrypt_character_forward. cbn [bind]. unfold str_eq, ord.
  now destruct (forward (base + i) s1 s2 =? ch).
Qed.

Lemma decrypt_character_recover ch s1 s2 :
  decrypt_character ch s1 s2 = Ok (recover ch s1 s2).
Proof.
  unfold decrypt_character, recover, str_le, ord.
  rewrite !scan_first_match by (lits; lia).
  destruct ((lit "a" <=? ch) && (ch <=? lit "z")).
  - cbn [bind]. now destruct first_match.
  - destruct ((lit "A" <=? ch) && (ch <=? lit "Z")); [|reflexivity].
    cbn [bind]. now destruct first_match.
Qed.

(** What [find] returns on the candidates of an alphabet. *)
Lemma find_offsets_some (p : char -> bool) base c n s :
  find p (map (fun i => base + i) (map Z.of_nat (seq s n))) = Some c ->
  exists j, Z.of_nat s <= j < Z.of_nat (s + n) /\ c = base + j /\ p c = true /\
            forall k, Z.of_nat s <= k < j -> p (base + k) = false.
Proof.
  revert s. induction n as [|n IH]; intros s; cbn [seq map find]; [discriminate|].
  destruct (p (base + Z.of_nat s)) eqn:E.
  - intros [= <-]. exists (Z.of_nat s). repeat split; try lia. exact E.
  - intros H. destruct (IH _ H) as (j & Hj & -> & Hp & Hmin).
    exists j. repeat split; try lia; [exact Hp|].
    intros k Hk. destruct (Z.eq_dec k (Z.of_nat s)) as [->|Hne]; [exact E|].
    apply Hmin. lia.
Qed.

Lemma find_offsets_none (p : char -> bool) base n s :
  find p (map (fun i => base + i) (map Z.of_nat (seq s n))) = None ->
  forall k, Z.of_nat s <= k < Z.of_nat (s + n) -> p (base + k) = false.
Proof.
  revert s. induction n as [|n IH]; intros s; cbn [seq map find]; [lia|].
  destruct (p (base + Z.of_nat s)) eqn:E; [discriminate|].
  intros H k Hk. destruct (Z.eq_dec k (Z.of_nat s)) as [->|Hne]; [exact E|].
  apply (IH _ H). lia.
Qed.

Lemma first_match_some base ch s1 s2 c :
  first_match base ch s1 s2 = Some c ->
  exists j, 0 <= j < 26 /\ c = base + j /\ forward c s1 s2 = ch /\
            forall k, 0 <= k < j -> forward (base + k) s1 s2 <> ch.
Proof.
  intros H. apply find_offsets_some in H.
  destruct H as (j & Hj & -> & Hp & Hmin).
  exists j. split; [lia|]. split; [reflexivity|]. split.
  - now apply Z.eqb_eq.
  - intros k Hk. apply Z.eqb_neq, Hmin. lia.
Qed.

Lemma first_match_none base ch s1 s2 :
  first_match base ch s1 s2 = None ->
  forall k, 0 <= k < 26 -> forward (base + k) s1 s2 <> ch.
Proof.
  intros H k Hk. apply Z.eqb_neq.
  apply (find_offsets_none _ _ _ _ H). lia.
Qed.

(** A candidate that matches makes the search succeed, at an offset that
    is no larger. *)
Lemma first_match_upto base ch s1 s2 j :
  0 <= j < 26 -> forward (base + j) s1 s2 = ch ->
  exists m, 0 <= m <= j /\ first_match base ch s1 s2 = Some (base + m) /\
            forward (base + m) s1 s2 = ch /\
            forall k, 0 <= k < m -> forward (base + k) s1 s2 <> ch.
Proof.
  intros Hj Hf. destruct (first_match base ch s1 s2) as [c|] eqn:E.
  - destruct (first_match_some _ _ _ _ _ E) as (m & Hm & -> & Hc & Hmin).
    assert (m <= j).
    { destruct (Z_le_gt_dec m j) as [?|Hgt]; [assumption|].
      exfalso. apply (Hmin j); [lia|exact Hf]. }
    exists m. split; [lia|]. split; [reflexivity|]. split; assumption.
  - exfalso. apply (first_match_none _ _ _ _ E j Hj Hf).
Qed.

(** ** What [recover] returns *)

Section Recover.
Variables (s1 s2 : Z).

Lemma recover_other c : ~ is_letter c -> recover c s1 s2 = c.
Proof.
  intros H. unfold recover. unfold_cmp.
  repeat match goal with
  | |- context [?a <=? ?b] => destruct (Z.leb_spec a b); cbn [andb]
  end; try reflexivity; lia.
Qed.

Lemma recover_lower ch :
  is_lower ch ->
  recover ch s1 s2 =
    match first_match (lit "a") ch s1 s2 with Some cand => cand | None => ch end.
Proof.
  intros H. unfold recover. unfold_cmp.
  destruct (Z.leb_spec 97 ch); [|lia].
  destruct (Z.leb_spec ch 122); [|lia]. reflexivity.
Qed.

Lemma recover_upper ch :
  is_upper ch ->
  recover ch s1 s2 =
    match first_match (lit "A") ch s1 s2 with Some cand => cand | None => ch end.
Proof.
  intros H. unfold recover. unfold_cmp.
  destruct (Z.leb_spec 97 ch); [lia|].
  destruct (Z.leb_spec 65 ch); [|lia].
  destruct (Z.leb_spec ch 90); [|lia]. reflexivity.
Qed.

Lemma recover_is_lower ch : is_lower ch -> is_lower (recover ch s1 s2).
Proof.
  intros H. rewrite recover_lower by exact H.
  destruct first_match as [c|] eqn:E; [|exact H].
  destruct (first_match_some _ _ _ _ _ E) as (j & Hj & -> & _).
  unfold_cmp. lia.
Qed.

Lemma recover_is_upper ch : is_upper ch -> is_upper (recover ch s1 s2).
Proof.
  intros H. rewrite recover_upper by exact H.
  destruct first_match as [c|] eqn:E; [|exact H].
  destruct (first_match_some _ _ _ _ _ E) as (j & Hj & -> & _).
  unfold_cmp. lia.
Qed.

(** Every preimage of a letter is a candidate of the scan for it. *)
Lemma preimage_is_candidate ch base p :
  (is_lower ch /\ base = lit "a") \/ (is_upper ch /\ base = lit "A") ->
  forward p s1 s2 = ch ->
  exists j, 0 <= j < 26 /\ p = base + j.
Proof.
  intros [[H ->]|[H ->]] Hp.
  - assert (Hl : is_lower p) by (apply (forward_lower_inv s1 s2); now rewrite Hp).
    exists (p - lit "a"). unfold_cmp. lia.
  - assert (Hl : is_upper p) by (apply (forward_upper_inv s1 s2); now rewrite Hp).
    exists (p - lit "A"). unfold_cmp. lia.
Qed.

(** Re-encrypting the recovered character gives the character back
    exactly on the image of the forward transform. *)
Lemma forward_recover_iff ch :
  forward (recover ch s1 s2) s1 s2 = ch <-> exists p, forward p s1 s2 = ch.
Proof.
  split; [intros H; now exists (recover ch s1 s2)|].
  intros (p & Hp).
  destruct (domain_cases ch) as [D|[D|[D|[D|D]]]].
  5: { rewrite recover_other by exact D. now apply forward_other. }
  1,2: assert (Hl : is_lower ch) by (unfold_cmp; lia);
       destruct (preimage_is_candidate ch (lit "a") p (or_introl (conj Hl eq_refl)) Hp)
         as (j & Hj & ->);
       rewrite recover_lower by exact Hl.
  3,4: assert (Hu : is_upper ch) by (unfold_cmp; lia);
       destruct (preimage_is_candidate ch (lit "A") p (or_intror (conj Hu eq_refl)) Hp)
         as (j & Hj & ->);
       rewrite recover_upper by exact Hu.
  all: destruct (first_match_upto _ _ _ _ j Hj Hp) as (m & _ & -> & Hm & _);
    exact Hm.
Qed.
End Recover.

(** ** Batch application *)

Lemma join_map_map (f : char -> result char) (g : char -> char) t :
  (forall c, f c = Ok (g c)) -> join_map f t = Ok (map g t).
Proof.
  intros H. induction t as [|c t IH]; [reflexivity|].
  cbn [join_map map]. rewrite H, IH. reflexivity.
Qed.

Lemma encrypt_file_map t s1 s2 :
  encrypt_file t s1 s2 = Ok (map (fun c => forward c s1 s2) t).
Proof.
  apply join_map_map. intros c. apply encrypt_character_forward.
Qed.

Lemma decrypt_file_map t s1 s2 :
  decrypt_file t s1 s2 = Ok (map (fun c => recover c s1 s2) t).
Proof.
  apply join_map_map. intros c. apply decrypt_character_recover.
Qed.

Lemma text_eq_spec s t : text_eq s t = true <-> s = t.
Proof.
  revert t. induction s as [|a s IH]; intros [|b t]; cbn [text_eq];
    try (split; [discriminate|discriminate]); [tauto|].
  rewrite andb_true_iff, IH. unfold str_eq, ord. rewrite Z.eqb_eq.
  split; [intros [-> ->]; reflexivity|intros [= -> ->]; tauto].
Qed.

Lemma verify_roundtrip_eq t s1 s2 :
  verify_roundtrip t s1 s2 =
    Ok (text_eq (map (fun c => forward (recover c s1 s2) s1 s2) t) t).
Proof.
  unfold verify_roundtrip.
  rewrite (join_map_map _ (fun c => recover c s1 s2))
    by (intros c; apply decrypt_character_recover).
  cbn [bind].
  rewrite (join_map_map _ (fun c => forward c s1 s2))
    by (intros c; apply encrypt_character_forward).
  cbn [bind]. now rewrite map_map.
Qed.

Lemma map_id_iff {A : Type} (f : A -> A) (l : list A) :
  map f l = l <-> Forall (fun x => f x = x) l.
Proof.
  induction l as [|x l IH]; cbn [map].
  - split; [constructor|reflexivity].
  - split.
    + intros [= Hx Hl]. constructor; [exact Hx|now apply IH].
    + intros H. inversion H as [|? ? Hx Hl]; subst.
      rewrite Hx. f_equal. now apply IH.
Qed.

Lemma find_ext_eq {A : Type} (p q : A -> bool) (l : list A) :
  (forall x, p x = q x) -> find p l = find q l.
Proof.
  intros H. induction l as [|x l IH]; [reflexivity|].
  cbn [find]. now rewrite H, IH.
Qed.

Lemma recover_mod26 c s1 s2 :
  recover c (s1 mod 26) (s2 mod 26) = recover c s1 s2.
Proof.
  assert (E : forall base,
    first_match base c (s1 mod 26) (s2 mod 26) = first_match base c s1 s2).
  { intros base. apply find_ext_eq. intros x. now rewrite forward_mod26. }
  unfold recover. now rewrite !E.
Qed.

Lemma in_image_forward s1 s2 c : in_image s1 s2 c <-> exists p, forward p s1 s2 = c.
Proof.
  unfold in_image. split; intros (p & Hp); exists p.
  - rewrite encrypt_character_forward in Hp. now injection Hp.
  - rewrite encrypt_character_forward. now rewrite Hp.
Qed.

Lemma Ok_inj {A : Type} (a b : A) : Ok a = Ok b <-> a = b.
Proof. split; [now intros [= ->]|now intros ->]. Qed.

(** ** The image of the forward transform *)

Lemma roundtrip_map_iff t s1 s2 :
  map (fun c => forward c s1 s2) (map (fun c => recover c s1 s2) t) = t <->
  Forall (in_image s1 s2) t.
Proof.
  rewrite map_map, map_id_iff. split; apply Forall_impl; intros c H.
  - apply in_image_forward. now apply forward_recover_iff.
  - apply forward_recover_iff. now apply in_image_forward.
Qed.

Lemma image_of_encrypt_file p s1 s2 :
  Forall (in_image s1 s2) (map (fun c => forward c s1 s2) p).
Proof.
  apply Forall_forall. intros c Hc. apply in_map_iff in Hc.
  destruct Hc as (x & <- & _). exists x. apply encrypt_character_forward.
Qed.

(** The scan for a letter fails exactly when nothing encrypts to it. *)
Lemma first_match_none_iff base ch s1 s2 :
  (is_lower ch /\ base = lit "a") \/ (is_upper ch /\ base = lit "A") ->
  first_match base ch s1 s2 = None <-> ~ in_image s1 s2 ch.
Proof.
  intros Hcase. rewrite in_image_forward. split.
  - intros Hnone (p & Hp).
    destruct (preimage_is_candidate s1 s2 ch base p Hcase Hp) as (j & Hj & ->).
    exact (first_match_none _ _ _ _ Hnone j Hj Hp).
  - intros Hno. destruct (first_match base ch s1 s2) as [c|] eqn:E; [|reflexivity].
    destruct (first_match_some _ _ _ _ _ E) as (j & _ & _ & Hf & _).
    exfalso. apply Hno. now exists c.
Qed.

(** The two halves of the lowercase alphabet are sent onto two arcs of 13
    letters; they cover the alphabet exactly when the arcs are
    complementary. *)
Lemma lower_onto_iff s1 s2 :
  (forall ch, is_lower ch -> exists cand, is_lower cand /\ forward cand s1 s2 = ch)
  <-> (s1 * s2 + s1 + s2) mod 26 = 0.
Proof.
  split.
  - intros Honto.
    destruct (Honto (lit "a" + ((s1 * s2) mod 26 + 13) mod 26)) as (c1 & L1 & E1);
      [unfold_cmp; modarith|].
    destruct (Honto (lit "a" + ((s1 * s2) mod 26 + 25) mod 26)) as (c2 & L2 & E2);
      [unfold_cmp; modarith|].
    destruct (Z_le_gt_dec c1 (lit "m")) as [M1|M1];
      [rewrite forward_lower_first in E1 by (unfold_cmp; lia)
      |rewrite forward_lower_second in E1 by (unfold_cmp; lia)];
    (destruct (Z_le_gt_dec c2 (lit "m")) as [M2|M2];
      [rewrite forward_lower_first in E2 by (unfold_cmp; lia)
      |rewrite forward_lower_second in E2 by (unfold_cmp; lia)]);
    unfold_cmp; modarith.
  - intros H ch Hl.
    set (o := (ch - lit "a" - (s1 * s2) mod 26) mod 26).
    assert (Ho : 0 <= o < 26) by (apply Z.mod_pos_bound; lia).
    exists (lit "a" + o). split; [unfold_cmp; lia|].
    destruct (Z_le_gt_dec o 12) as [M|M];
      [rewrite forward_lower_first by (unfold_cmp; lia)
      |rewrite forward_lower_second by (unfold_cmp; lia)];
      subst o; unfold_cmp; modarith.
Qed.

Lemma upper_onto_iff s1 s2 :
  (forall ch, is_upper ch -> exists cand, is_upper cand /\ forward cand s1 s2 = ch)
  <-> (s1 + s2 * s2) mod 26 = 0.
Proof.
  split.
  - intros Honto.
    destruct (Honto (lit "A" + (13 - s1 mod 26) mod 26)) as (c1 & L1 & E1);
      [unfold_cmp; modarith|].
    destruct (Honto (lit "A" + (25 - s1 mod 26) mod 26)) as (c2 & L2 & E2);
      [unfold_cmp; modarith|].
    destruct (Z_le_gt_dec c1 (lit "M")) as [M1|M1];
      [rewrite forward_upper_first in E1 by (unfold_cmp; lia)
      |rewrite forward_upper_second in E1 by (unfold_cmp; lia)];
    (destruct (Z_le_gt_dec c2 (lit "M")) as [M2|M2];
      [rewrite forward_upper_first in E2 by (unfold_cmp; lia)
      |rewrite forward_upper_second in E2 by (unfold_cmp; lia)]);
    unfold_cmp; modarith.
  - intros H ch Hu.
    set (o := (ch - lit "A" + s1 mod 26) mod 26).
    assert (Ho : 0 <= o < 26) by (apply Z.mod_pos_bound; lia).
    exists (lit "A" + o). split; [unfold_cmp; lia|].
    destruct (Z_le_gt_dec o 12) as [M|M];
      [rewrite forward_upper_first by (unfold_cmp; lia)
      |rewrite forward_upper_second by (unfold_cmp; lia)];
      subst o; unfold_cmp; modarith.
Qed.

(** ** The differing positions of two texts *)

Section Differences.
Local Open Scope nat_scope.

Lemma differences_In s o d i x y :
  In (CharMismatch i x y) (differences s o d) <->
  s <= i /\ nth_error o (i - s) = Some x /\ nth_error d (i - s) = Some y /\ x <> y.
Proof.
  revert s d. induction o as [|a o IH]; intros s [|b d]; cbn [differences].
  - split; [contradiction|]. intros (_ & H & _). now destruct (i - s).
  - split; [contradiction|]. intros (_ & H & _). now destruct (i - s).
  - split; [contradiction|]. intros (_ & _ & H & _). now destruct (i - s).
  - assert (Step : In (CharMismatch i x y) (differences (S s) o d) <->
                   S s <= i /\ nth_error (a :: o) (i - s) = Some x /\
                   nth_error (b :: d) (i - s) = Some y /\ x <> y).
    { rewrite IH. split.
      - intros (Hs & Ho & Hd & Hne).
        replace (i - s) with (S (i - S s)) by lia. cbn [nth_error]. tauto.
      - intros (Hs & Ho & Hd & Hne).
        replace (i - s) with (S (i - S s)) in Ho, Hd by lia. cbn [nth_error] in *.
        tauto. }
    destruct (Z.eqb_spec a b) as [->|Hab].
    + rewrite Step. split; [intros (? & ? & ? & ?)|intros (Hs & Ho & Hd & Hne)].
      * repeat split; try assumption; lia.
      * repeat split; try assumption.
        destruct (Nat.eq_dec i s) as [->|]; [|lia].
        rewrite Nat.sub_diag in Ho, Hd. cbn in Ho, Hd. congruence.
    + cbn [In]. rewrite Step. split.
      * intros [[= <- <- <-]|(? & ? & ? & ?)].
        -- rewrite Nat.sub_diag. cbn. repeat split; auto.
        -- repeat split; try assumption; lia.
      * intros (Hs & Ho & Hd & Hne).
        destruct (Nat.eq_dec i s) as [->|]; [left|right; repeat split; try assumption; lia].
        rewrite Nat.sub_diag in Ho, Hd. cbn in Ho, Hd. congruence.
Qed.

Lemma differences_chars s o d m :
  In m (differences s o d) -> exists i x y, m = CharMismatch i x y /\ s <= i.
Proof.
  revert s d. induction o as [|a o IH]; intros s [|b d]; cbn [differences];
    try contradiction.
  destruct (a =? b)%Z.
  - intros H. destruct (IH _ _ H) as (i & x & y & -> & Hi).
    exists i, x, y. split; [reflexivity|lia].
  - intros [<-|H]; [now exists s, a, b|].
    destruct (IH _ _ H) as (i & x & y & -> & Hi).
    exists i, x, y. split; [reflexivity|lia].
Qed.

Lemma differences_sorted s o d : StronglySorted before (differences s o d).
Proof.
  revert s d. induction o as [|a o IH]; intros s [|b d]; cbn [differences];
    try constructor.
  destruct (a =? b)%Z; [apply IH|].
  constructor; [apply IH|].
  apply Forall_forall. intros m Hm.
  destruct (differences_chars _ _ _ _ Hm) as (i & x & y & -> & Hi).
  cbn. lia.
Qed.

Lemma differences_nil_iff o d :
  differences 0 o d = [] /\ length o = length d <-> o = d.
Proof.
  generalize 0. revert d.
  induction o as [|a o IH]; intros [|b d] s; cbn [differences length];
    try (split; [intros [_ [=]]|discriminate]); [tauto|].
  destruct (Z.eqb_spec a b) as [->|Hab].
  - split.
    + intros [H [= L]]. f_equal. apply (IH d (S s)). now split.
    + intros [= E]. apply (IH d (S s)) in E. destruct E as [H L].
      split; [exact H|now rewrite L].
  - split; [intros [[=] _]|intros [= ? ?]; contradiction].
Qed.
End Differences.

(** ** The loop of [verify_strict] *)

Lemma index_app_here (pre : text) x rest i :
  length pre = i -> index (pre ++ x :: rest) i = Ok x.
Proof.
  intros <-. unfold index. rewrite nth_error_app2 by lia.
  now rewrite Nat.sub_diag.
Qed.

(** Invariant of the loop: having read [i] characters of both texts and
    holding fewer than [cap] records, the loop ends with the records
    held, followed by the differences still to come, cut at [cap]. *)
Lemma collect_differences o' d' :
  forall i pre_o pre_d acc cap,
    length pre_o = i -> length pre_d = i ->
    Z.of_nat (length acc) < cap ->
    collect (seq i (Nat.min (length o') (length d')))
            (pre_o ++ o') (pre_d ++ d') cap acc
    = Ok (firstn (Z.to_nat cap) (acc ++ differences i o' d')).
Proof.
  revert d'. induction o' as [|x o' IH]; intros [|y d'] i pre_o pre_d acc cap Ho Hd Hacc;
    cbn [length Nat.min seq collect differences];
    try (rewrite app_nil_r, firstn_all2 by lia; reflexivity).
  rewrite (index_app_here pre_o) by exact Ho. cbn [bind].
  rewrite (index_app_here pre_d) by exact Hd. cbn [bind].
  unfold str_eq, ord.
  replace (pre_o ++ x :: o') with ((pre_o ++ [x]) ++ o') by now rewrite <- app_assoc.
  replace (pre_d ++ y :: d') with ((pre_d ++ [y]) ++ d') by now rewrite <- app_assoc.
  destruct (x =? y); cbn [negb].
  - apply IH; rewrite ?length_app; cbn [length]; lia.
  - rewrite Z.geb_leb.
    destruct (Z.leb_spec cap (Z.of_nat (length (acc ++ [CharMismatch i x y])))) as [Hc|Hc].
    + rewrite length_app in Hc. cbn [length] in Hc.
      replace (acc ++ CharMismatch i x y :: differences (S i) o' d')
        with ((acc ++ [CharMismatch i x y]) ++ differences (S i) o' d')
        by now rewrite <- app_assoc.
      rewrite firstn_app, length_app. cbn [length].
      replace (Z.to_nat cap - (length acc + 1))%nat with 0%nat by lia.
      rewrite firstn_O, app_nil_r.
      now rewrite firstn_all2 by (rewrite length_app; cbn [length]; lia).
    + rewrite IH by (try exact Hc; rewrite length_app; cbn [length]; lia).
      now rewrite <- app_assoc.
Qed.

(** The loop never indexes outside the texts, whatever the cap. *)
Lemma collect_total idxs o d cap acc :
  (forall i, In i idxs -> (i < length o)%nat /\ (i < length d)%nat) ->
  exists recs, collect idxs o d cap acc = Ok recs.
Proof.
  revert acc. induction idxs as [|i idxs IH]; intros acc Hin; cbn [collect].
  - now exists acc.
  - destruct (Hin i (or_introl eq_refl)) as [Ho Hd].
    unfold index.
    destruct (nth_error o i) as [x|] eqn:Ex;
      [|apply nth_error_None in Ex; lia].
    destruct (nth_error d i) as [y|] eqn:Ey;
      [|apply nth_error_None in Ey; lia].
    cbn [bind].
    assert (Hrest : forall j, In j idxs -> (j < length o)%nat /\ (j < length d)%nat)
      by (intros j Hj; apply Hin; now right).
    destruct (negb (str_eq x y)); [|now apply IH].
    destruct (Z.of_nat (length (acc ++ [CharMismatch i x y])) >=? cap);
      [eexists; reflexivity|now apply IH].
Qed.

Lemma verify_strict_total o d cap :
  exists ok recs, verify_strict o d cap = Ok (ok, recs).
Proof.
  unfold verify_strict. destruct (text_eq o d); [now exists true, []|].
  destruct (collect_total (seq 0 (Nat.min (length o) (length d))) o d cap [])
    as (recs & ->).
  { intros i Hi. apply in_seq in Hi. lia. }
  cbn [bind]. eexists _, _. reflexivity.
Qed.

Lemma verify_strict_flag o d cap ok recs :
  verify_strict o d cap = Ok (ok, recs) -> (ok = true <-> o = d).
Proof.
  unfold verify_strict. destruct (text_eq o d) eqn:E.
  - intros [= <- _]. apply text_eq_spec in E. tauto.
  - destruct (collect _ o d cap []); cbn [bind]; [|discriminate].
    intros [= <- _]. split; [discriminate|].
    intros ->. now rewrite (proj2 (text_eq_spec d d) eq_refl) in E.
Qed.

Lemma verify_strict_differ o d cap :
  1 <= cap -> o <> d ->
  verify_strict o d cap = Ok (false, expected_report o d cap).
Proof.
  intros Hcap Hne. unfold verify_strict.
  destruct (text_eq o d) eqn:E; [apply text_eq_spec in E; contradiction|].
  pose proof (collect_differences o d 0%nat [] [] [] cap eq_refl eq_refl) as C.
  cbn [app length] in C. rewrite C by lia. cbn [bind].
  unfold expected_report. cbv zeta.
  destruct ((Z.of_nat (length (firstn (Z.to_nat cap) (differences 0 o d))) <? cap)
            && negb (Nat.eqb (length o) (length d)));
    [reflexivity|now rewrite app_nil_r].
Qed.

Lemma expected_report_length o d cap :
  0 <= cap -> Z.of_nat (length (expected_report o d cap)) <= cap.
Proof.
  intros Hcap. unfold expected_report. rewrite length_app.
  pose proof (firstn_le_length (Z.to_nat cap) (differences 0 o d)) as Hle.
  destruct (Z.ltb_spec (Z.of_nat (length (firstn (Z.to_nat cap) (differences 0 o d)))) cap);
    cbn [andb]; [destruct (negb _)|]; cbn [length]; lia.
Qed.

(** * The statements of the design document *)

(** C1, as stated, fails: with shifts 2 and 3 no letter encrypts to
    ['a'], the scan of [decrypt_character] falls through and returns ['a']
    itself, and re-encrypting gives ['g']. *)
Lemma roundtrip_fails_outside_image :
  decrypt_file (str "a") 2 3 = Ok (str "a") /\
  encrypt_file (str "a") 2 3 = Ok (str "g") /\
  str "g" <> str "a" /\
  verify_roundtrip (str "a") 2 3 = Ok false.
Proof. repeat split. discriminate. Qed.

(** C1, amended.  For every text [T] and all shifts, decrypting every
    character of [T] and encrypting every character of the result never
    raises, and reproduces [T] exactly when every character of [T] is in
    the image of [encrypt_character] under these shifts; this is the case
    of every text that [encrypt_file] produced with the same shifts, and
    it is what [verify_roundtrip] returns. *)
Theorem roundtrip_iff_in_image (T : text) (s1 s2 : Z) :
  exists dec reenc,
    decrypt_file T s1 s2 = Ok dec /\
    encrypt_file dec s1 s2 = Ok reenc /\
    verify_roundtrip T s1 s2 = Ok (text_eq reenc T) /\
    (reenc = T <-> Forall (in_image s1 s2) T) /\
    (forall P, encrypt_file P s1 s2 = Ok T -> reenc = T).
Proof.
  exists (map (fun c => recover c s1 s2) T),
         (map (fun c => forward c s1 s2) (map (fun c => recover c s1 s2) T)).
  rewrite decrypt_file_map, encrypt_file_map, verify_roundtrip_eq.
  split; [reflexivity|]. split; [reflexivity|]. split; [now rewrite map_map|].
  split; [apply roundtrip_map_iff|].
  intros P HP. rewrite encrypt_file_map in HP. injection HP as <-.
  apply roundtrip_map_iff, image_of_encrypt_file.
Qed.

(** C2.  [encrypt_character] follows the four-domain rule table: it
    returns the character the table gives ([forward]); spelled out, a
    letter of a-m moves forward by [(s1*s2) mod 26] inside a-z, one of n-z
    backward by [(s1+s2) mod 26] inside a-z, one of A-M backward by
    [s1 mod 26] inside A-Z, one of N-Z forward by [(s2*s2) mod 26] inside
    A-Z, wrapping around, and any other character is returned unchanged. *)
Theorem encrypt_character_rule_table (ch : char) (s1 s2 : Z) :
  encrypt_character ch s1 s2 = Ok (forward ch s1 s2) /\
  (lit "a" <= ch <= lit "m" ->
     exists r, encrypt_character ch s1 s2 = Ok r /\ is_lower r /\
               (r - ch - (s1 * s2) mod 26) mod 26 = 0) /\
  (lit "n" <= ch <= lit "z" ->
     exists r, encrypt_character ch s1 s2 = Ok r /\ is_lower r /\
               (ch - r - (s1 + s2) mod 26) mod 26 = 0) /\
  (lit "A" <= ch <= lit "M" ->
     exists r, encrypt_character ch s1 s2 = Ok r /\ is_upper r /\
               (ch - r - s1 mod 26) mod 26 = 0) /\
  (lit "N" <= ch <= lit "Z" ->
     exists r, encrypt_character ch s1 s2 = Ok r /\ is_upper r /\
               (r - ch - (s2 * s2) mod 26) mod 26 = 0) /\
  (~ is_letter ch -> encrypt_character ch s1 s2 = Ok ch).
Proof.
  rewrite encrypt_character_forward.
  split; [reflexivity|]. repeat apply conj; intros D.
  - exists (forward ch s1 s2). split; [reflexivity|].
    rewrite forward_lower_first by exact D. unfold_cmp. split; modarith.
  - exists (forward ch s1 s2). split; [reflexivity|].
    rewrite forward_lower_second by exact D. unfold_cmp. split; modarith.
  - exists (forward ch s1 s2). split; [reflexivity|].
    rewrite forward_upper_first by exact D. unfold_cmp. split; modarith.
  - exists (forward ch s1 s2). split; [reflexivity|].
    rewrite forward_upper_second by exact D. unfold_cmp. split; modarith.
  - now rewrite forward_other.
Qed.

(** C3, as stated, fails: with shifts 2 and 3 nothing encrypts to the
    letter ['a'], the scan finds no candidate and [decrypt_character]
    takes the fallback. *)
Lemma fallback_reached_for_a :
  is_lower (lit "a") /\
  ~ (exists cand, encrypt_character cand 2 3 = Ok (lit "a")) /\
  scan (lit "a") (lit "a") 2 3 = Ok None /\
  decrypt_character (lit "a") 2 3 = Ok (lit "a").
Proof.
  assert (S : scan (lit "a") (lit "a") 2 3 = Ok None) by reflexivity.
  assert (L : is_lower (lit "a")) by (unfold_cmp; lia).
  split; [exact L|]. split; [|split; reflexivity].
  apply (first_match_none_iff (lit "a") (lit "a") 2 3 (or_introl (conj L eq_refl))).
  reflexivity.
Qed.

(** C3, amended.  [encrypt_character] is onto the lowercase alphabet
    exactly when [(s1*s2 + s1 + s2) mod 26 = 0] and onto the uppercase
    alphabet exactly when [(s1 + s2*s2) mod 26 = 0]; for a letter [ch] the
    candidate scan of [decrypt_character] finds no match, so that the
    fallback returns [ch], exactly when no character encrypts to [ch]. *)
Theorem onto_alphabet_iff (s1 s2 : Z) :
  ((forall ch, is_lower ch ->
      exists cand, is_lower cand /\ encrypt_character cand s1 s2 = Ok ch)
   <-> (s1 * s2 + s1 + s2) mod 26 = 0) /\
  ((forall ch, is_upper ch ->
      exists cand, is_upper cand /\ encrypt_character cand s1 s2 = Ok ch)
   <-> (s1 + s2 * s2) mod 26 = 0) /\
  (forall ch, is_lower ch ->
     (scan (lit "a") ch s1 s2 = Ok None <-> ~ in_image s1 s2 ch) /\
     (in_image s1 s2 ch ->
        exists cand, is_lower cand /\ scan (lit "a") ch s1 s2 = Ok (Some cand))) /\
  (forall ch, is_upper ch ->
     (scan (lit "A") ch s1 s2 = Ok None <-> ~ in_image s1 s2 ch) /\
     (in_image s1 s2 ch ->
        exists cand, is_upper cand /\ scan (lit "A") ch s1 s2 = Ok (Some cand))).
Proof.
  split; [|split; [|split]].
  - rewrite <- lower_onto_iff. split; intros H ch Hl;
      destruct (H ch Hl) as (cand & Hc & He); exists cand; split; try exact Hc.
    + rewrite encrypt_character_forward in He. now injection He.
    + rewrite encrypt_character_forward. now rewrite He.
  - rewrite <- upper_onto_iff. split; intros H ch Hl;
      destruct (H ch Hl) as (cand & Hc & He); exists cand; split; try exact Hc.
    + rewrite encrypt_character_forward in He. now injection He.
    + rewrite encrypt_character_forward. now rewrite He.
  - intros ch Hl. rewrite scan_first_match by (lits; lia).
    pose proof (first_match_none_iff (lit "a") ch s1 s2 (or_introl (conj Hl eq_refl))) as N.
    split; [rewrite Ok_inj; exact N|]. intros Him.
    destruct (first_match (lit "a") ch s1 s2) as [c|] eqn:E.
    + exists c. split; [|reflexivity].
      destruct (first_match_some _ _ _ _ _ E) as (j & Hj & -> & _).
      unfold_cmp; lia.
    + exfalso. now apply (proj1 N).
  - intros ch Hu. rewrite scan_first_match by (lits; lia).
    pose proof (first_match_none_iff (lit "A") ch s1 s2 (or_intror (conj Hu eq_refl))) as N.
    split; [rewrite Ok_inj; exact N|]. intros Him.
    destruct (first_match (lit "A") ch s1 s2) as [c|] eqn:E.
    + exists c. split; [|reflexivity].
      destruct (first_match_some _ _ _ _ _ E) as (j & Hj & -> & _).
      unfold_cmp; lia.
    + exfalso. now apply (proj1 N).
Qed.



(** C5.  With shifts 2 and 3 the letters ['T'] and ['E'] both encrypt to
    ['C'], and decrypting ['C'] returns ['E'], the candidate of lower
    offset. *)
Theorem collision_T_E :
  encrypt_character (lit "T") 2 3 = Ok (lit "C") /\
  encrypt_character (lit "E") 2 3 = Ok (lit "C") /\
  encrypt_character (lit "T") 2 3 = encrypt_character (lit "E") 2 3 /\
  decrypt_character (lit "C") 2 3 = Ok (lit "E") /\
  lit "E" - lit "A" < lit "T" - lit "A".
Proof. repeat split. Qed.

(** C6, as stated, fails for a cap below 1: with the cap 0 the loop
    still records the first differing position before it tests the cap,
    and no list has at most -1 records. *)
Lemma verify_strict_exceeds_cap :
  verify_strict (str "a") (str "b") 0
    = Ok (false, [CharMismatch 0 (lit "a") (lit "b")]) /\
  ~ Z.of_nat (length [CharMismatch 0 (lit "a") (lit "b")]) <= 0 /\
  verify_strict (str "a") (str "") (-1) = Ok (false, []) /\
  ~ Z.of_nat (length (@nil mismatch)) <= -1.
Proof. repeat split; cbn; lia. Qed.

(** C6, amended.  [verify_strict] never raises and returns [(True, [])]
    exactly when the texts are equal.  For a cap of at least 1 (the
    default is 5) and texts that differ it returns [False] with at most
    [cap] records: the earliest differing positions below both lengths, as
    [(position, original character, decrypted character)] in increasing
    position order, followed by the length record when fewer than [cap]
    positions were recorded and the lengths differ. *)
Theorem verify_strict_report (original decrypted : text) (report_mismatches : Z) :
  exists ok recs,
    verify_strict original decrypted report_mismatches = Ok (ok, recs) /\
    (ok = true <-> original = decrypted) /\
    (original = decrypted -> recs = []) /\
    (1 <= report_mismatches -> original <> decrypted ->
       recs = expected_report original decrypted report_mismatches /\
       Z.of_nat (length recs) <= report_mismatches) /\
    (forall i x y,
       In (CharMismatch i x y) (differences 0 original decrypted) <->
       nth_error original i = Some x /\ nth_error decrypted i = Some y /\ x <> y) /\
    (forall m, In m (differences 0 original decrypted) ->
       exists i x y, m = CharMismatch i x y) /\
    StronglySorted before (differences 0 original decrypted).
Proof.
  destruct (verify_strict_total original decrypted report_mismatches)
    as (ok & recs & Hr).
  exists ok, recs. split; [exact Hr|].
  pose proof (verify_strict_flag _ _ _ _ _ Hr) as Hok.
  split; [exact Hok|]. split; [|split; [|split; [|split]]].
  - intros E. subst decrypted. unfold verify_strict in Hr.
    rewrite (proj2 (text_eq_spec original original) eq_refl) in Hr.
    now injection Hr.
  - intros Hcap Hne. rewrite verify_strict_differ in Hr by assumption.
    injection Hr as _ <-. split; [reflexivity|].
    apply expected_report_length. lia.
  - intros i x y. rewrite differences_In, Nat.sub_0_r.
    split; [tauto|]. intros H. split; [lia|exact H].
  - intros m Hm. destruct (differences_chars _ _ _ _ Hm) as (i & x & y & -> & _).
    now exists i, x, y.
  - apply differences_sorted.
Qed.

Lemma verify_strict_report_witness :
  1 <= default_report_mismatches /\
  str "Hi" <> str "Ha!" /\
  exists recs,
    verify_strict (str "Hi") (str "Ha!") default_report_mismatches = Ok (false, recs) /\
    recs = expected_report (str "Hi") (str "Ha!") default_report_mismatches /\
    Z.of_nat (length recs) <= default_report_mismatches.
Proof.
  assert (Hcap : 1 <= default_report_mismatches)
    by (unfold default_report_mismatches; lia).
  assert (Hne : str "Hi" <> str "Ha!") by discriminate.
  split; [exact Hcap|]. split; [exact Hne|].
  destruct (verify_strict_report (str "Hi") (str "Ha!") default_report_mismatches)
    as (ok & recs & Hr & Hok & _ & Hrep & _).
  exists recs. destruct ok.
  - exfalso. apply Hne, Hok. reflexivity.
  - split; [exact Hr|exact (Hrep Hcap Hne)].
Defined.

Example verify_strict_run :
  verify_strict (str "Hi") (str "Ha!") default_report_mismatches
  = Ok (false, [CharMismatch 1 (lit "i") (lit "a"); LengthMismatch 2 3]).
Proof. reflexivity. Qed.

(** C7.  For any integer shifts both transforms return a character
    (they never raise), the result is the one obtained with the shifts
    reduced modulo 26, and a letter is sent to a letter of its own case. *)
Theorem shifts_reduced_mod26 (c : char) (s1 s2 : Z) :
  exists e d,
    encrypt_character c s1 s2 = Ok e /\
    decrypt_character c s1 s2 = Ok d /\
    encrypt_character c (s1 mod 26) (s2 mod 26) = Ok e /\
    decrypt_character c (s1 mod 26) (s2 mod 26) = Ok d /\
    (is_lower c -> is_lower e /\ is_lower d) /\
    (is_upper c -> is_upper e /\ is_upper d).
Proof.
  exists (forward c s1 s2), (recover c s1 s2).
  rewrite !encrypt_character_forward, !decrypt_character_recover,
    forward_mod26, recover_mod26.
  repeat apply conj; try reflexivity; intros H; split.
  - now apply forward_is_lower.
  - now apply recover_is_lower.
  - now apply forward_is_upper.
  - now apply recover_is_upper.
Qed.

(** C8.  A character outside a-z and A-Z is returned unchanged by both
    transforms, whatever the shifts. *)
Theorem identity_on_unclassified (c : char) (s1 s2 : Z) :
  ~ is_letter c ->
  encrypt_character c s1 s2 = Ok c /\ decrypt_character c s1 s2 = Ok c.
Proof.
  intros H. rewrite encrypt_character_forward, decrypt_character_recover.
  now rewrite forward_other, recover_other.
Qed.

Lemma identity_on_unclassified_witness :
  ~ is_letter (lit "!") /\
  encrypt_character (lit "!") (-7) 1000 = Ok (lit "!") /\
  decrypt_character (lit "!") (-7) 1000 = Ok (lit "!").
Proof.
  assert (H : ~ is_letter (lit "!")) by (unfold_cmp; vm_compute; intuition discriminate).
  split; [exact H|]. exact (identity_on_unclassified (lit "!") (-7) 1000 H).
Defined.

(** C9.  Both batch passes return a text of the length of their input,
    whose character at each position is the transform of the input
    character at that position under the two shifts. *)
Theorem batch_length_and_positions (t : text) (s1 s2 : Z) :
  exists e d,
    encrypt_file t s1 s2 = Ok e /\ decrypt_file t s1 s2 = Ok d /\
    length e = length t /\ length d = length t /\
    forall i c, nth_error t i = Some c ->
      (exists ec, encrypt_character c s1 s2 = Ok ec /\ nth_error e i = Some ec) /\
      (exists dc, decrypt_character c s1 s2 = Ok dc /\ nth_error d i = Some dc).
Proof.
  exists (map (fun c => forward c s1 s2) t), (map (fun c => recover c s1 s2) t).
  rewrite encrypt_file_map, decrypt_file_map, !length_map.
  repeat apply conj; try reflexivity.
  intros i c Hi. split.
  - exists (forward c s1 s2). split; [apply encrypt_character_forward|].
    now rewrite nth_error_map, Hi.
  - exists (recover c s1 s2). split; [apply decrypt_character_recover|].
    now rewrite nth_error_map, Hi.
Qed.

(** C10.  Decrypting the encryption of a character [ch] gives a character
    that encrypts to the same cipher character; when [ch] is a letter it
    is a letter of the same case at an offset no larger than that of [ch]. *)
Theorem decrypt_of_encrypt (ch : char) (s1 s2 : Z) :
  exists e d,
    encrypt_character ch s1 s2 = Ok e /\
    decrypt_character e s1 s2 = Ok d /\
    encrypt_character d s1 s2 = Ok e /\
    (is_lower ch -> is_lower d /\ d - lit "a" <= ch - lit "a") /\
    (is_upper ch -> is_upper d /\ d - lit "A" <= ch - lit "A").
Proof.
  exists (forward ch s1 s2), (recover (forward ch s1 s2) s1 s2).
  rewrite !encrypt_character_forward, decrypt_character_recover.
  split; [reflexivity|]. split; [reflexivity|]. split.
  { apply Ok_inj, forward_recover_iff. now exists ch. }
  split; intros H.
  - pose proof (forward_is_lower s1 s2 ch H) as He.
    split; [now apply recover_is_lower|].
    rewrite recover_lower by exact He.
    destruct (first_match_upto (lit "a") (forward ch s1 s2) s1 s2 (ch - lit "a"))
      as (m & Hm & -> & _).
    + unfold_cmp; lia.
    + f_equal. lia.
    + lia.
  - pose proof (forward_is_upper s1 s2 ch H) as He.
    split; [now apply recover_is_upper|].
    rewrite recover_upper by exact He.
    destruct (first_match_upto (lit "A") (forward ch s1 s2) s1 s2 (ch - lit "A"))
      as (m & Hm & -> & _).
    + unfold_cmp; lia.
    + f_equal. lia.
    + lia.
Qed.

(** * Scenarios of the design document *)

(** The concrete scenario: ["Hello, World!"] under the shifts 2 and 3. *)
Example hello_world :
  encrypt_file (str "Hello, World!") 2 3 = Ok (str "Fkrrj, Fjmrj!").
Proof. reflexivity. Qed.

(** A strict match is not guaranteed: ['T'] and ['E'] collide under the
    shifts 2 and 3, so the plaintext ["TE"] comes back as ["EE"] and the
    strict check reports position 0. *)
Example strict_match_not_guaranteed :
  encrypt_file (str "TE") 2 3 = Ok (str "CC") /\
  decrypt_file (str "CC") 2 3 = Ok (str "EE") /\
  verify_roundtrip (str "CC") 2 3 = Ok true /\
  verify_strict (str "TE") (str "EE") default_report_mismatches
    = Ok (false, [CharMismatch 0 (lit "T") (lit "E")]).
Proof. repeat split. Qed.

(** * Further properties of the code *)

(** ** Decrypting an encrypted letter *)

Lemma forward_recover_forward c s1 s2 :
  forward (recover (forward c s1 s2) s1 s2) s1 s2 = forward c s1 s2.
Proof. apply forward_recover_iff. now exists c. Qed.

Lemma recover_forward_lower c s1 s2 :
  is_lower c ->
  is_lower (recover (forward c s1 s2) s1 s2) /\
  recover (forward c s1 s2) s1 s2 <= c.
Proof.
  intros H. pose proof (forward_is_lower s1 s2 c H) as He.
  split; [now apply recover_is_lower|].
  rewrite recover_lower by exact He.
  destruct (first_match_upto (lit "a") (forward c s1 s2) s1 s2 (c - lit "a"))
    as (m & Hm & -> & _).
  - unfold_cmp; lia.
  - f_equal. lia.
  - lia.
Qed.

Lemma recover_forward_upper c s1 s2 :
  is_upper c ->
  is_upper (recover (forward c s1 s2) s1 s2) /\
  recover (forward c s1 s2) s1 s2 <= c.
Proof.
  intros H. pose proof (forward_is_upper s1 s2 c H) as He.
  split; [now apply recover_is_upper|].
  rewrite recover_upper by exact He.
  destruct (first_match_upto (lit "A") (forward c s1 s2) s1 s2 (c - lit "A"))
    as (m & Hm & -> & _).
  - unfold_cmp; lia.
  - f_equal. lia.
  - lia.
Qed.

Lemma recover_forward_other c s1 s2 :
  ~ is_letter c -> recover (forward c s1 s2) s1 s2 = c.
Proof. intros H. now rewrite forward_other, recover_other. Qed.

(** Two letters of one case with the same encryption: the later one is
    not recovered. *)
Lemma collision_not_recovered a b s1 s2 :
  (is_lower a /\ is_lower b) \/ (is_upper a /\ is_upper b) ->
  a < b -> forward a s1 s2 = forward b s1 s2 ->
  recover (forward b s1 s2) s1 s2 <> b.
Proof.
  intros Hcase Hlt Hf.
  assert (recover (forward a s1 s2) s1 s2 <= a) as Hle
    by (destruct Hcase as [[Ha _]|[Ha _]];
        [now apply recover_forward_lower|now apply recover_forward_upper]).
  rewrite Hf in Hle. lia.
Qed.

(** ** The shifts under which nothing is lost *)

Lemma forward_lower_uniform c s1 s2 :
  (s1 * s2 + s1 + s2) mod 26 = 0 -> is_lower c ->
  forward c s1 s2 = lit "a" + (c - lit "a" + (s1 * s2) mod 26) mod 26.
Proof.
  intros H Hl. destruct (Z_le_gt_dec c (lit "m")) as [M|M];
    [rewrite forward_lower_first by (unfold_cmp; lia)
    |rewrite forward_lower_second by (unfold_cmp; lia)];
    unfold_cmp; modarith.
Qed.

Lemma forward_upper_uniform c s1 s2 :
  (s1 + s2 * s2) mod 26 = 0 -> is_upper c ->
  forward c s1 s2 = lit "A" + (c - lit "A" + (s2 * s2) mod 26) mod 26.
Proof.
  intros H Hu. destruct (Z_le_gt_dec c (lit "M")) as [M|M];
    [rewrite forward_upper_first by (unfold_cmp; lia)
    |rewrite forward_upper_second by (unfold_cmp; lia)];
    unfold_cmp; modarith.
Qed.

Lemma lower_collision s1 s2 :
  (s1 * s2 + s1 + s2) mod 26 <> 0 ->
  exists a b, is_lower a /\ is_lower b /\ a < b /\
              forward a s1 s2 = forward b s1 s2.
Proof.
  intros H. set (d := (s1 * s2 + s1 + s2) mod 26) in *.
  assert (Hd : 0 < d < 26) by (pose proof (Z.mod_pos_bound (s1 * s2 + s1 + s2) 26); lia).
  destruct (Z_le_gt_dec d 13) as [D|D].
  - exists (lit "m"), (lit "m" + d).
    rewrite forward_lower_first by (unfold_cmp; lia).
    rewrite forward_lower_second by (unfold_cmp; lia).
    subst d. unfold_cmp. repeat split; try lia; modarith.
  - exists (lit "a"), (lit "a" + d).
    rewrite forward_lower_first by (unfold_cmp; lia).
    rewrite forward_lower_second by (unfold_cmp; lia).
    subst d. unfold_cmp. repeat split; try lia; modarith.
Qed.

Lemma upper_collision s1 s2 :
  (s1 + s2 * s2) mod 26 <> 0 ->
  exists a b, is_upper a /\ is_upper b /\ a < b /\
              forward a s1 s2 = forward b s1 s2.
Proof.
  intros H. set (d := (- (s1 + s2 * s2)) mod 26).
  assert (Hd : 0 < d < 26) by (subst d; modarith).
  destruct (Z_le_gt_dec d 13) as [D|D].
  - exists (lit "M"), (lit "M" + d).
    rewrite forward_upper_first by (unfold_cmp; lia).
    rewrite forward_upper_second by (unfold_cmp; lia).
    subst d. unfold_cmp. repeat split; try lia; modarith.
  - exists (lit "A"), (lit "A" + d).
    rewrite forward_upper_first by (unfold_cmp; lia).
    rewrite forward_upper_second by (unfold_cmp; lia).
    subst d. unfold_cmp. repeat split; try lia; modarith.
Qed.

Lemma recover_forward_lower_iff s1 s2 :
  (forall c, is_lower c -> recover (forward c s1 s2) s1 s2 = c)
  <-> (s1 * s2 + s1 + s2) mod 26 = 0.
Proof.
  split.
  - intros Hid. destruct (Z.eq_dec ((s1 * s2 + s1 + s2) mod 26) 0) as [E|E]; [exact E|].
    destruct (lower_collision s1 s2 E) as (a & b & Ha & Hb & Hlt & Hf).
    exfalso. apply (collision_not_recovered a b s1 s2); auto.
  - intros H c Hl.
    destruct (recover_forward_lower c s1 s2 Hl) as [Hr Hle].
    pose proof (forward_recover_forward c s1 s2) as Hf.
    set (r := recover (forward c s1 s2) s1 s2) in *.
    rewrite !forward_lower_uniform in Hf by assumption.
    unfold_cmp. modarith.
Qed.

Lemma recover_forward_upper_iff s1 s2 :
  (forall c, is_upper c -> recover (forward c s1 s2) s1 s2 = c)
  <-> (s1 + s2 * s2) mod 26 = 0.
Proof.
  split.
  - intros Hid. destruct (Z.eq_dec ((s1 + s2 * s2) mod 26) 0) as [E|E]; [exact E|].
    destruct (upper_collision s1 s2 E) as (a & b & Ha & Hb & Hlt & Hf).
    exfalso. apply (collision_not_recovered a b s1 s2); auto.
  - intros H c Hu.
    destruct (recover_forward_upper c s1 s2 Hu) as [Hr Hle].
    pose proof (forward_recover_forward c s1 s2) as Hf.
    set (r := recover (forward c s1 s2) s1 s2) in *.
    rewrite !forward_upper_uniform in Hf by assumption.
    unfold_cmp. modarith.
Qed.

(** ** The main program *)

Lemma verify_roundtrip_encrypted raw s1 s2 :
  verify_roundtrip (map (fun c => forward c s1 s2) raw) s1 s2 = Ok true.
Proof.
  rewrite verify_roundtrip_eq. apply (f_equal Ok), text_eq_spec.
  rewrite map_map. apply map_ext. intros c. apply forward_recover_forward.
Qed.

(** The run of [main], step by step. *)
Lemma main_run raw s1 s2 :
  exists strict,
    verify_strict raw (map (fun c => recover (forward c s1 s2) s1 s2) raw)
                  default_report_mismatches = Ok strict /\
    main raw s1 s2 =
      Ok {| encrypted_text := map (fun c => forward c s1 s2) raw;
            decrypted_text := map (fun c => recover (forward c s1 s2) s1 s2) raw;
            printed := [EncryptionComplete; DecryptionComplete; RoundTripPassed]
                       ++ strict_lines strict |}.
Proof.
  destruct (verify_strict_total raw
              (map (fun c => recover (forward c s1 s2) s1 s2) raw)
              default_report_mismatches) as (ok & recs & Hs).
  exists (ok, recs). split; [exact Hs|].
  unfold main. rewrite encrypt_file_map. cbn [bind].
  rewrite decrypt_file_map, map_map. cbn [bind].
  rewrite verify_roundtrip_encrypted. cbn [bind].
  rewrite Hs. cbn [bind fst snd]. unfold strict_lines. cbn [fst snd].
  destruct ok; cbn [app]; reflexivity.
Qed.

Lemma In_strict_lines_passed strict :
  In StrictPassed (strict_lines strict) <-> fst strict = true.
Proof.
  unfold strict_lines. destruct (fst strict); cbn [In app].
  - split; auto.
  - split; [|discriminate]. intros [H|H]; [discriminate|].
    apply in_app_or in H. destruct H as [H|[H|[]]]; [|discriminate].
    apply in_map_iff in H. destruct H as (? & ? & _). discriminate.
Qed.

Lemma In_strict_lines_mismatch strict m :
  In (MismatchLine m) (strict_lines strict) <-> fst strict = false /\ In m (snd strict).
Proof.
  unfold strict_lines. destruct (fst strict); cbn [In app].
  - split; [intros [H|[]]; discriminate|intros [H _]; discriminate].
  - split.
    + intros [H|H]; [discriminate|]. apply in_app_or in H.
      destruct H as [H|[H|[]]]; [|discriminate].
      apply in_map_iff in H. destruct H as (m' & [= ->] & Hm). now split.
    + intros [_ H]. right. apply in_or_app. left. now apply in_map.
Qed.

(** What a record of differing positions between a text and its
    decryption after encryption says. *)
Lemma pipeline_difference raw s1 s2 i o d :
  In (CharMismatch i o d)
     (differences 0 raw (map (fun c => recover (forward c s1 s2) s1 s2) raw)) ->
  nth_error raw i = Some o /\ d = recover (forward o s1 s2) s1 s2 /\ d < o /\
  ((is_lower o /\ is_lower d) \/ (is_upper o /\ is_upper d)) /\
  forward d s1 s2 = forward o s1 s2.
Proof.
  intros H. apply differences_In in H. rewrite Nat.sub_0_r in H.
  destruct H as (_ & Ho & Hd & Hne).
  rewrite nth_error_map, Ho in Hd. cbn in Hd. injection Hd as Hd.
  split; [exact Ho|]. split; [now symmetry|].
  assert (Hf : forward d s1 s2 = forward o s1 s2)
    by (subst d; apply forward_recover_forward).
  destruct (domain_cases o) as [D|[D|[D|[D|D]]]].
  5: { exfalso. apply Hne. subst d. symmetry. now apply recover_forward_other. }
  1,2: assert (L : is_lower o) by (unfold_cmp; lia);
       destruct (recover_forward_lower o s1 s2 L) as [Hl Hle]; rewrite Hd in Hl, Hle;
       split; [lia|]; split; [left; now split|exact Hf].
  all: assert (U : is_upper o) by (unfold_cmp; lia);
       destruct (recover_forward_upper o s1 s2 U) as [Hu Hle]; rewrite Hd in Hu, Hle;
       split; [lia|]; split; [right; now split|exact Hf].
Qed.

Lemma In_firstn_In {A : Type} (x : A) n l : In x (firstn n l) -> In x l.
Proof.
  intros H. rewrite <- (firstn_skipn n l). apply in_or_app. now left.
Qed.

(** X1.  [main] never raises, and its round-trip verification always
    passes: the text it checks was produced by [encrypt_file] with the
    same shifts, so the branch that prints the failure is never taken. *)
Theorem main_roundtrip_always_passes (raw : text) (s1 s2 : Z) :
  exists r,
    main raw s1 s2 = Ok r /\
    encrypt_file raw s1 s2 = Ok (encrypted_text r) /\
    decrypt_file (encrypted_text r) s1 s2 = Ok (decrypted_text r) /\
    verify_roundtrip (encrypted_text r) s1 s2 = Ok true /\
    In RoundTripPassed (printed r) /\ ~ In RoundTripFailed (printed r).
Proof.
  destruct (main_run raw s1 s2) as (strict & Hs & ->).
  eexists. split; [reflexivity|]. cbn [encrypted_text decrypted_text printed].
  split; [apply encrypt_file_map|].
  split; [now rewrite decrypt_file_map, map_map|].
  split; [apply verify_roundtrip_encrypted|].
  split; [cbn; tauto|].
  cbn [app In]. intros [H|[H|[H|H]]]; try discriminate.
  unfold strict_lines in H. destruct (fst strict); cbn [In app] in H.
  - destruct H as [H|[]]; discriminate.
  - destruct H as [H|H]; [discriminate|]. apply in_app_or in H.
    destruct H as [H|[H|[]]]; [|discriminate].
    apply in_map_iff in H. destruct H as (? & ? & _). discriminate.
Qed.

(** X2.  In [main] the strict verification passes exactly when the
    decrypted text equals the raw text.  Every mismatch it prints is a
    genuine collision: a position where the raw letter [o] came back as a
    strictly earlier letter [d] of the same case that encrypts to the same
    cipher character; a length mismatch is never printed. *)
Theorem main_mismatches_are_collisions (raw : text) (s1 s2 : Z) :
  exists r,
    main raw s1 s2 = Ok r /\
    (In StrictPassed (printed r) <-> decrypted_text r = raw) /\
    forall m, In (MismatchLine m) (printed r) ->
      exists i o d,
        m = CharMismatch i o d /\
        nth_error raw i = Some o /\ nth_error (decrypted_text r) i = Some d /\
        d < o /\
        ((is_lower o /\ is_lower d) \/ (is_upper o /\ is_upper d)) /\
        encrypt_character d s1 s2 = encrypt_character o s1 s2.
Proof.
  destruct (main_run raw s1 s2) as ([ok recs] & Hs & ->).
  eexists. split; [reflexivity|]. cbn [encrypted_text decrypted_text printed].
  set (dec := map (fun c => recover (forward c s1 s2) s1 s2) raw) in *.
  pose proof (verify_strict_flag _ _ _ _ _ Hs) as Hok.
  split.
  - cbn [app In]. rewrite In_strict_lines_passed. cbn [fst]. rewrite Hok.
    split.
    + intros [H|[H|[H|H]]]; try discriminate. now symmetry.
    + intros H. right. right. right. now symmetry.
  - intros m Hm. cbn [app In] in Hm.
    destruct Hm as [H|[H|[H|Hm]]]; try discriminate.
    apply In_strict_lines_mismatch in Hm. cbn [fst snd] in Hm.
    destruct Hm as [-> Hm].
    assert (Hne : raw <> dec) by (intros E; apply Hok in E; discriminate).
    rewrite verify_strict_differ in Hs
      by (unfold default_report_mismatches; lia || exact Hne).
    injection Hs as <-. unfold expected_report in Hm.
    assert (Hlen : length raw = length dec) by (subst dec; now rewrite length_map).
    rewrite Hlen, Nat.eqb_refl, andb_false_r, app_nil_r in Hm.
    apply In_firstn_In in Hm.
    destruct (differences_chars _ _ _ _ Hm) as (i & o & d & -> & _).
    destruct (pipeline_difference raw s1 s2 i o d Hm) as (Ho & Hd & Hlt & Hcase & Hf).
    exists i, o, d. split; [reflexivity|]. split; [exact Ho|].
    split; [subst dec; now rewrite nth_error_map, Ho, Hd|].
    split; [exact Hlt|]. split; [exact Hcase|].
    now rewrite !encrypt_character_forward, Hf.
Qed.

Lemma recover_forward_all s1 s2 :
  (s1 * s2 + s1 + s2) mod 26 = 0 -> (s1 + s2 * s2) mod 26 = 0 ->
  forall c, recover (forward c s1 s2) s1 s2 = c.
Proof.
  intros Hl Hu c. destruct (domain_cases c) as [D|[D|[D|[D|D]]]].
  5: now apply recover_forward_other.
  1,2: apply (proj2 (recover_forward_lower_iff s1 s2) Hl); unfold_cmp; lia.
  all: apply (proj2 (recover_forward_upper_iff s1 s2) Hu); unfold_cmp; lia.
Qed.

(** X3.  The shifts under which nothing is lost.  Decrypting the
    encryption gives every character back, and the strict verification of
    [main] passes for every raw text, exactly when
    [(s1*s2 + s1 + s2) mod 26 = 0] and [(s1 + s2*s2) mod 26 = 0]. *)
Theorem lossless_shifts_iff (s1 s2 : Z) :
  ((forall c, exists e, encrypt_character c s1 s2 = Ok e /\
                        decrypt_character e s1 s2 = Ok c)
   <-> (s1 * s2 + s1 + s2) mod 26 = 0 /\ (s1 + s2 * s2) mod 26 = 0) /\
  ((forall raw, exists r, main raw s1 s2 = Ok r /\ decrypted_text r = raw /\
                          In StrictPassed (printed r))
   <-> (s1 * s2 + s1 + s2) mod 26 = 0 /\ (s1 + s2 * s2) mod 26 = 0).
Proof.
  assert (Chars : (forall c, recover (forward c s1 s2) s1 s2 = c) <->
                  (s1 * s2 + s1 + s2) mod 26 = 0 /\ (s1 + s2 * s2) mod 26 = 0).
  { split.
    - intros H. split;
        [apply recover_forward_lower_iff|apply recover_forward_upper_iff];
        intros c _; apply H.
    - intros [Hl Hu]. now apply recover_forward_all. }
  split.
  - rewrite <- Chars. split.
    + intros H c. destruct (H c) as (e & He & Hd).
      rewrite encrypt_character_forward in He. injection He as <-.
      rewrite decrypt_character_recover in Hd. now injection Hd.
    + intros H c. exists (forward c s1 s2).
      now rewrite encrypt_character_forward, decrypt_character_recover, H.
  - rewrite <- Chars. split.
    + intros H c. destruct (H [c]) as (r & Hr & Hdec & _).
      destruct (main_run [c] s1 s2) as (strict & _ & Hm).
      rewrite Hm in Hr. injection Hr as <-.
      cbn [decrypted_text map] in Hdec. now injection Hdec.
    + intros H raw. destruct (main_run raw s1 s2) as ([ok recs] & Hs & ->).
      eexists. split; [reflexivity|]. cbn [decrypted_text printed].
      assert (E : map (fun c => recover (forward c s1 s2) s1 s2) raw = raw).
      { rewrite <- (map_id raw) at 2. apply map_ext. exact H. }
      split; [exact E|]. rewrite E in Hs.
      apply verify_strict_flag in Hs.
      cbn [app In]. right. right. right.
      apply In_strict_lines_passed. cbn [fst]. now apply Hs.
Qed.

(** X4.  The decrypted text is a fixed point of the pipeline: running
    [main] on it gives the same encrypted text and the same decrypted
    text, and the strict verification passes. *)
Theorem main_second_pass (raw : text) (s1 s2 : Z) :
  exists r r',
    main raw s1 s2 = Ok r /\
    main (decrypted_text r) s1 s2 = Ok r' /\
    encrypted_text r' = encrypted_text r /\
    decrypted_text r' = decrypted_text r /\
    In StrictPassed (printed r').
Proof.
  destruct (main_run raw s1 s2) as (strict & _ & Hr).
  set (dec := map (fun c => recover (forward c s1 s2) s1 s2) raw) in *.
  destruct (main_run dec s1 s2) as ([ok recs] & Hs & Hr').
  eexists _, _. split; [exact Hr|].
  cbn [decrypted_text encrypted_text printed]. split; [exact Hr'|].
  cbn [decrypted_text encrypted_text printed].
  assert (E : map (fun c => forward c s1 s2) dec = map (fun c => forward c s1 s2) raw).
  { subst dec. rewrite map_map. apply map_ext. intros c.
    apply forward_recover_forward. }
  assert (D : map (fun c => recover (forward c s1 s2) s1 s2) dec = dec).
  { rewrite <- (map_map (fun c => forward c s1 s2) (fun c => recover c s1 s2)).
    rewrite E. subst dec. now rewrite map_map. }
  split; [exact E|]. split; [exact D|].
  rewrite D in Hs. apply verify_strict_flag in Hs.
  cbn [app In]. right. right. right.
  apply In_strict_lines_passed. cbn [fst]. now apply Hs.
Qed.


(** X6.  Both passes and the round-trip check work piece by piece: the
    encryption (decryption) of a concatenation is the concatenation of the
    encryptions (decryptions), and the round-trip check accepts a
    concatenation exactly when it accepts both parts. *)
Theorem batch_concatenation (a b : text) (s1 s2 : Z) :
  exists ea eb da db,
    encrypt_file a s1 s2 = Ok ea /\ encrypt_file b s1 s2 = Ok eb /\
    encrypt_file (a ++ b) s1 s2 = Ok (ea ++ eb) /\
    decrypt_file a s1 s2 = Ok da /\ decrypt_file b s1 s2 = Ok db /\
    decrypt_file (a ++ b) s1 s2 = Ok (da ++ db) /\
    (verify_roundtrip (a ++ b) s1 s2 = Ok true <->
     verify_roundtrip a s1 s2 = Ok true /\ verify_roundtrip b s1 s2 = Ok true).
Proof.
  exists (map (fun c => forward c s1 s2) a), (map (fun c => forward c s1 s2) b),
         (map (fun c => recover c s1 s2) a), (map (fun c => recover c s1 s2) b).
  rewrite !encrypt_file_map, !decrypt_file_map, !map_app.
  do 6 (split; [reflexivity|]).
  assert (R : forall t, verify_roundtrip t s1 s2 = Ok true <->
                        Forall (fun c => forward (recover c s1 s2) s1 s2 = c) t).
  { intros t. rewrite verify_roundtrip_eq, Ok_inj, text_eq_spec.
    apply map_id_iff. }
  rewrite !R. apply Forall_app.
Qed.

(** ** More on the strict check *)

Lemma differ_somewhere o d :
  o <> d -> differences 0 o d <> [] \/ length o <> length d.
Proof.
  intros Hne. destruct (differences 0 o d) as [|m l] eqn:E.
  - right. intros L. apply Hne, differences_nil_iff. now split.
  - left. discriminate.
Qed.

(** X7.  For a cap of at least 1 and texts that differ, the number of
    records returned is the smaller of the cap and the number of differing
    positions below both lengths, plus one when the lengths differ; it is
    never zero; and a report shorter than the cap is complete: it lists
    every differing position, then the length record when the lengths
    differ. *)
Theorem verify_strict_record_count (o d : text) (cap : Z) :
  1 <= cap -> o <> d ->
  exists recs,
    verify_strict o d cap = Ok (false, recs) /\
    Z.of_nat (length recs)
      = Z.min cap (Z.of_nat (length (differences 0 o d))
                   + (if Nat.eqb (length o) (length d) then 0 else 1)) /\
    1 <= Z.of_nat (length recs) /\
    (Z.of_nat (length recs) < cap ->
     recs = differences 0 o d ++
            (if Nat.eqb (length o) (length d) then []
             else [LengthMismatch (length o) (length d)])).
Proof.
  intros Hcap Hne. exists (expected_report o d cap).
  split; [now apply verify_strict_differ|].
  pose proof (differ_somewhere o d Hne) as Hsome.
  unfold expected_report. cbv zeta.
  set (diffs := differences 0 o d) in *.
  assert (Hk : diffs <> [] -> (1 <= length diffs)%nat)
    by (destruct diffs; [congruence|cbn; lia]).
  pose proof (length_firstn (Z.to_nat cap) diffs) as Hl.
  destruct (Nat.eqb_spec (length o) (length d)) as [El|El]; cbn [negb].
  - rewrite andb_false_r, app_nil_r.
    assert (1 <= length diffs)%nat by (destruct Hsome; [auto|contradiction]).
    split; [lia|]. split; [lia|].
    intros Hlt. rewrite app_nil_r. apply firstn_all2. lia.
  - rewrite andb_true_r.
    destruct (Z.ltb_spec (Z.of_nat (length (firstn (Z.to_nat cap) diffs))) cap) as [Hc|Hc];
      rewrite length_app; cbn [length].
    + split; [lia|]. split; [lia|]. intros _. f_equal. apply firstn_all2. lia.
    + split; [lia|]. split; [lia|]. intros Hlt. lia.
Qed.

Lemma verify_strict_record_count_witness :
  1 <= default_report_mismatches /\ str "Hi" <> str "Ha!" /\
  exists recs,
    verify_strict (str "Hi") (str "Ha!") default_report_mismatches = Ok (false, recs) /\
    Z.of_nat (length recs) = 2.
Proof.
  assert (Hcap : 1 <= default_report_mismatches)
    by (unfold default_report_mismatches; lia).
  assert (Hne : str "Hi" <> str "Ha!") by discriminate.
  split; [exact Hcap|]. split; [exact Hne|].
  destruct (verify_strict_record_count (str "Hi") (str "Ha!")
              default_report_mismatches Hcap Hne) as (recs & Hr & Hn & _).
  exists recs. split; [exact Hr|]. exact Hn.
Defined.

(** With a cap that the next record reaches, the loop stops at the first
    differing position. *)
Lemma collect_first o' d' :
  forall i pre_o pre_d acc cap,
    length pre_o = i -> length pre_d = i ->
    cap <= Z.of_nat (length acc) + 1 ->
    collect (seq i (Nat.min (length o') (length d')))
            (pre_o ++ o') (pre_d ++ d') cap acc
    = Ok (acc ++ firstn 1 (differences i o' d')).
Proof.
  revert d'. induction o' as [|x o' IH]; intros [|y d'] i pre_o pre_d acc cap Ho Hd Hacc;
    cbn [length Nat.min seq collect differences];
    try (cbn [firstn]; now rewrite app_nil_r).
  rewrite (index_app_here pre_o) by exact Ho. cbn [bind].
  rewrite (index_app_here pre_d) by exact Hd. cbn [bind].
  unfold str_eq, ord.
  replace (pre_o ++ x :: o') with ((pre_o ++ [x]) ++ o') by now rewrite <- app_assoc.
  replace (pre_d ++ y :: d') with ((pre_d ++ [y]) ++ d') by now rewrite <- app_assoc.
  destruct (x =? y); cbn [negb].
  - apply IH; rewrite ?length_app; cbn [length]; lia.
  - rewrite Z.geb_leb.
    destruct (Z.leb_spec cap (Z.of_nat (length (acc ++ [CharMismatch i x y])))) as [Hc|Hc].
    + reflexivity.
    + rewrite length_app in Hc. cbn [length] in Hc. lia.
Qed.

Lemma verify_strict_low_cap o d cap :
  cap <= 0 -> o <> d ->
  verify_strict o d cap = Ok (false, firstn 1 (differences 0 o d)).
Proof.
  intros Hcap Hne. unfold verify_strict.
  destruct (text_eq o d) eqn:E; [apply text_eq_spec in E; contradiction|].
  pose proof (collect_first o d 0%nat [] [] [] cap eq_refl eq_refl) as C.
  cbn [app length] in C. rewrite C by lia. cbn [bind].
  destruct (Z.ltb_spec (Z.of_nat (length (firstn 1 (differences 0 o d)))) cap);
    [lia|reflexivity].
Qed.

(** X8.  With a cap of 0 or less and texts that differ, [verify_strict]
    returns [False] with the first differing position below both lengths
    alone, or with no record at all when there is none (the texts differ
    in length only); it never adds the length record. *)
Theorem verify_strict_without_cap (o d : text) (cap : Z) :
  cap <= 0 -> o <> d ->
  verify_strict o d cap = Ok (false, firstn 1 (differences 0 o d)) /\
  (length o = length d -> exists i x y,
     firstn 1 (differences 0 o d) = [CharMismatch i x y] /\
     nth_error o i = Some x /\ nth_error d i = Some y /\ x <> y /\
     forall j, (j < i)%nat -> nth_error o j = nth_error d j).
Proof.
  intros Hcap Hne. split; [now apply verify_strict_low_cap|].
  intros Hlen. destruct (differ_somewhere o d Hne) as [Hd|Hd]; [|contradiction].
    destruct (differences 0 o d) as [|m rest] eqn:E; [contradiction|].
    assert (Hm : In m (differences 0 o d)) by (rewrite E; now left).
    destruct (differences_chars _ _ _ _ Hm) as (i & x & y & -> & _).
    exists i, x, y. split; [reflexivity|].
    apply differences_In in Hm. rewrite Nat.sub_0_r in Hm.
    destruct Hm as (_ & Hx & Hy & Hxy).
    split; [exact Hx|]. split; [exact Hy|]. split; [exact Hxy|].
    intros j Hj.
    destruct (nth_error o j) as [a|] eqn:Ea.
    2: { apply nth_error_None in Ea. assert (i < length o)%nat
           by (apply nth_error_Some; congruence). lia. }
    destruct (nth_error d j) as [b|] eqn:Eb.
    2: { apply nth_error_None in Eb. assert (i < length d)%nat
           by (apply nth_error_Some; congruence). lia. }
    destruct (Z.eq_dec a b) as [->|Hab]; [reflexivity|].
    exfalso.
    assert (Hin : In (CharMismatch j a b) (differences 0 o d))
      by (apply differences_In; rewrite Nat.sub_0_r; repeat split; auto; lia).
    pose proof (differences_sorted 0 o d) as Hs. rewrite E in Hs, Hin.
    inversion Hs as [|? ? _ Hall]; subst.
    destruct Hin as [[= -> _ _]|Hin]; [lia|].
    rewrite Forall_forall in Hall. specialize (Hall _ Hin). cbn in Hall. lia.
Qed.

Lemma verify_strict_without_cap_witness :
  (0 <= 0 /\ str "ab" <> str "abc") /\
  verify_strict (str "ab") (str "abc") 0 = Ok (false, []).
Proof.
  assert (Hne : str "ab" <> str "abc") by discriminate.
  split; [split; [lia|exact Hne]|].
  exact (proj1 (verify_strict_without_cap (str "ab") (str "abc") 0 (Z.le_refl 0) Hne)).
Defined.

Lemma differences_swap i o d :
  differences i d o = map swap (differences i o d).
Proof.
  revert i d. induction o as [|x o IH]; intros i [|y d]; cbn [differences map];
    try reflexivity.
  rewrite Z.eqb_sym. destruct (x =? y); cbn [map swap]; now rewrite IH.
Qed.

Lemma expected_report_swap o d cap :
  expected_report d o cap = map swap (expected_report o d cap).
Proof.
  unfold expected_report. cbv zeta.
  rewrite differences_swap, firstn_map, map_app, length_map.
  rewrite (Nat.eqb_sym (length d) (length o)).
  now destruct (_ && _).
Qed.

(** X9.  The strict check treats its two texts alike: exchanging them
    gives the same verdict and the same records with the two characters,
    or the two lengths, exchanged. *)
Theorem verify_strict_symmetric (o d : text) (cap : Z) :
  exists ok recs,
    verify_strict o d cap = Ok (ok, recs) /\
    verify_strict d o cap = Ok (ok, map swap recs).
Proof.
  destruct (list_eq_dec Z.eq_dec o d) as [->|Hne].
  - exists true, []. unfold verify_strict.
    now rewrite (proj2 (text_eq_spec d d) eq_refl).
  - assert (Hne' : d <> o) by congruence.
    destruct (Z_le_gt_dec 1 cap) as [Hcap|Hcap].
    + exists false, (expected_report o d cap).
      rewrite !verify_strict_differ by assumption.
      split; [reflexivity|now rewrite expected_report_swap].
    + exists false, (firstn 1 (differences 0 o d)).
      rewrite !verify_strict_low_cap by (assumption || lia).
      split; [reflexivity|now rewrite differences_swap, firstn_map].
Qed.

(** * The pattern drawing *)


Lemma and_then_raise ca e b : (ca, Some e) ;;; b = (ca, Some e).
Proof. reflexivity. Qed.



















Lemma repeat_run_raise n calls e :
  repeat_run (S n) (calls, Some e) = (calls, Some e).
Proof. reflexivity. Qed.


